(** * Payroll system: a shallow embedding of [payroll_system.py]

    The development follows the layout of the Python module: employee
    variants, the payroll runner, the tax calculator and the orchestrator.

    Modelling conventions.
    - Python numbers ([int] and [float]) are exact rationals ([Qc], canonical
      fractions with Leibniz equality); [float(x)] is therefore the identity.
      Rounding error, infinities and NaN of binary floating point are outside
      the model.  The integer counter [days_worked] is a [Z].
    - A raised exception is a value of [exn]; a call returns a [result].
    - Dictionaries keyed by employee name are [gmap string Qc].
    - Objects with private state are records; a mutating method takes the
      object and returns the updated object (or raises and leaves it as it
      was). *)

From Stdlib Require Import QArith Qcanon Lqa.
From stdpp Require Import base numbers option list gmap strings pretty.

Local Open Scope Qc_scope.

(** ** Python values, numbers and exceptions *)

(** Literals: an integer literal and a decimal fraction [n/d]. *)
Definition int (n : Z) : Qc := Qc_of_Z n.
Definition frac (n : Z) (d : positive) : Qc := Q2Qc (n # d).

(** The values a caller can hand to a dynamically checked parameter.
    [isinstance(v, (int, float))] holds for [PyNumber] only. *)
Inductive pyval :=
  | PyNone
  | PyNumber (x : Qc)
  | PyStr (s : string).

(** Both failures of the module are [ValueError]s, told apart by their
    message; [KeyError] is what a dictionary subscript raises. *)
Inductive exn :=
  | ValueError (msg : string)
  | KeyError (key : string).

Inductive result (A : Type) :=
  | Ok (a : A)
  | Raise (e : exn).
Arguments Ok {A} a.
Arguments Raise {A} e.

(** The two-argument builtins: Python returns the first argument unless the
    second is strictly smaller (resp. larger). *)
Definition py_min (a b : Qc) : Qc := if decide (b < a) then b else a.
Definition py_max (a b : Qc) : Qc := if decide (a < b) then b else a.

(** Nearest integer, ties to the even neighbour. *)
Definition round_half_even (x : Q) : Z :=
  let n := Qnum x in
  let d := Z.pos (Qden x) in
  let q := (n `div` d)%Z in
  let r := (n `mod` d)%Z in
  if (2 * r <? d)%Z then q
  else if (d <? 2 * r)%Z then (q + 1)%Z
  else if Z.even q then q else (q + 1)%Z.

(** [round(x, ndigits)] for a non-negative number of digits. *)
Definition round (x : Qc) (ndigits : nat) : Qc :=
  let scale := Z.pow 10 (Z.of_nat ndigits) in
  Q2Qc (Qmake (round_half_even (x * int scale)%Qc) (Z.to_pos scale)).

(** The format specification [:.2f]. *)
Definition two_digits (n : Z) : string :=
  if (n <? 10)%Z then "0" +:+ pretty n else pretty n.
Definition format_2f (x : Qc) : string :=
  let cents := Z.abs (round_half_even (x * int 100)%Qc) in
  (if decide (x < 0) then "-" else "") +:+
  pretty (cents `div` 100)%Z +:+ "." +:+ two_digits (cents `mod` 100)%Z.

(** ** Employees *)

Module SalariedEmployee.
Record t := Build
  { name : string; _department : string; __monthly_salary : Qc }.

(** The property getter. *)
Definition monthly_salary (self : t) : Qc := __monthly_salary self.

(** The property setter. *)
Definition set_monthly_salary (self : t) (value : pyval) : result t :=
  match value with
  | PyNumber v =>
      if decide (v < 0)
      then Raise (ValueError "monthly_salary must be a non-negative number.")
      else Ok (Build (name self) (_department self) v)
  | _ => Raise (ValueError "monthly_salary must be a non-negative number.")
  end.

Definition __init__ (name department : string) (monthly_salary : pyval)
  : result t :=
  set_monthly_salary (Build name department 0) monthly_salary.

Definition calculate_pay (self : t) (period_hours : option Qc) : Qc :=
  __monthly_salary self.

Definition apply_raise (self : t) (percent : pyval) : result t :=
  match percent with
  | PyNumber p =>
      let new_salary := __monthly_salary self * (1 + p / int 100) in
      if decide (new_salary < 0)
      then Raise (ValueError "Resulting salary cannot be negative.")
      else Ok (Build (name self) (_department self) new_salary)
  | _ => Raise (ValueError "percent must be a number.")
  end.
End SalariedEmployee.

Module HourlyEmployee.
Record t := Build
  { name : string; _department : string;
    hourly_rate : Qc; __overtime_multiplier : Qc }.

Definition __init__ (name department : string) (hourly_rate : Qc)
  : result t :=
  if decide (hourly_rate < 0)
  then Raise (ValueError "hourly_rate must be non-negative.")
  else Ok (Build name department hourly_rate (frac 15 10)).

Definition calculate_pay (self : t) (period_hours : option Qc)
  : result Qc :=
  match period_hours with
  | None => Raise (ValueError "period_hours must be provided and non-negative.")
  | Some period_hours =>
      if decide (period_hours < 0)
      then Raise (ValueError "period_hours must be provided and non-negative.")
      else
        let base_hours := py_min period_hours (int 160) in
        let overtime_hours := py_max (period_hours - int 160) (int 0) in
        Ok (base_hours * hourly_rate self
            + overtime_hours * hourly_rate self * __overtime_multiplier self)
  end.

Definition set_overtime_multiplier (self : t) (x : pyval) : result t :=
  match x with
  | PyNumber v =>
      if decide (v < 1)
      then Raise (ValueError "Overtime multiplier must be a number >= 1.0.")
      else Ok (Build (name self) (_department self) (hourly_rate self) v)
  | _ => Raise (ValueError "Overtime multiplier must be a number >= 1.0.")
  end.
End HourlyEmployee.

Module Contractor.
Record t := Build
  { name : string; _department : string;
    daily_rate : Qc; __days_worked : Z }.

Definition __init__ (name department : string) (daily_rate : Qc)
  : result t :=
  if decide (daily_rate < 0)
  then Raise (ValueError "daily_rate must be non-negative.")
  else Ok (Build name department daily_rate 0).

Definition log_day (self : t) : t :=
  Build (name self) (_department self) (daily_rate self)
        (__days_worked self + 1).


Definition calculate_pay (self : t) (period_hours : option Qc) : Qc :=
  daily_rate self * int (__days_worked self).
End Contractor.

(** The class hierarchy under [Employee] as a tagged union; method dispatch
    is the [match]. *)
Inductive Employee :=
  | Salaried (e : SalariedEmployee.t)
  | Hourly (e : HourlyEmployee.t)
  | Contract (e : Contractor.t).

Definition name (emp : Employee) : string :=
  match emp with
  | Salaried e => SalariedEmployee.name e
  | Hourly e => HourlyEmployee.name e
  | Contract e => Contractor.name e
  end.

Definition calculate_pay (emp : Employee) (period_hours : option Qc)
  : result Qc :=
  match emp with
  | Salaried e => Ok (SalariedEmployee.calculate_pay e period_hours)
  | Hourly e => HourlyEmployee.calculate_pay e period_hours
  | Contract e => Ok (Contractor.calculate_pay e period_hours)
  end.

(** ** The world of one payroll run

    [run_payroll] and [process_payroll] receive references to objects owned
    by the caller: the employee list held by the [PayrollSystem], the
    period-hours dictionary, and the two collaborators (logger and payment
    processor).  The world records the current state of the first two and
    the calls received so far by the collaborators, oldest first.  The
    timestamp a logger adds and the text a processor prints belong to the
    collaborators' implementations and are not part of the call. *)

Inductive call :=
  | LoggerLog (message : string)
  | ProcessorPay (employee_name : string) (amount : Qc).

Record World := MkWorld
  { employees : list Employee;
    period_hours_map : gmap string Qc;
    calls : list call }.

(** State and exceptions: a raised exception keeps the effects made before
    it. *)
Definition M (A : Type) : Type := World → result A * World.

Global Instance M_ret : MRet M := λ A a w, (Ok a, w).
Global Instance M_bind : MBind M := λ A B f m w,
  match m w with
  | (Ok a, w') => f a w'
  | (Raise e, w') => (Raise e, w')
  end.

Definition raise {A} (e : exn) : M A := λ w, (Raise e, w).
Definition lift {A} (r : result A) : M A := λ w, (r, w).
Definition get_employees : M (list Employee) := λ w, (Ok (employees w), w).
Definition get_period_hours_map : M (gmap string Qc) :=
  λ w, (Ok (period_hours_map w), w).
Definition emit (c : call) : M unit := λ w,
  (Ok (), MkWorld (employees w) (period_hours_map w) (calls w ++ [c])).

Definition log (message : string) : M unit := emit (LoggerLog message).
Definition pay (employee_name : string) (amount : Qc) : M unit :=
  emit (ProcessorPay employee_name amount).

(** Subscript [d[key]]. *)
Definition getitem (d : gmap string Qc) (key : string) : M Qc :=
  match d !! key with
  | Some v => mret v
  | None => raise (KeyError key)
  end.

(** ** Payroll runner *)

(** The body of the [for] loop of [run_payroll], with the local dictionary
    [results] as accumulator. *)
Fixpoint run_payroll_loop (emps : list Employee) (results : gmap string Qc)
  : M (gmap string Qc) :=
  match emps with
  | [] => mret results
  | emp :: rest =>
      pay ← match emp with
            | Hourly _ =>
                hours_map ← get_period_hours_map;
                match hours_map !! name emp with
                | None =>
                    raise (ValueError ("Missing hours for hourly employee "
                                         +:+ name emp +:+ "."))
                | Some hours => lift (calculate_pay emp (Some hours))
                end
            | _ => lift (calculate_pay emp None)
            end;
      run_payroll_loop rest (<[name emp := round pay 2]> results)
  end.

Definition run_payroll : M (gmap string Qc) :=
  emps ← get_employees;
  run_payroll_loop emps ∅.

(** ** Tax calculation *)

Module TaxCalculator.
Inductive t := Build.

Definition net (amount : Qc) : Qc :=
  if decide (amount ≤ int 3000) then amount
  else if decide (amount ≤ int 10000) then amount * frac 90 100
  else amount * frac 80 100.

Definition compute_net_map (self : t) (gross_map : gmap string Qc)
  : gmap string Qc :=
  (λ gross, round (net gross) 2) <$> gross_map.
End TaxCalculator.

(** ** Orchestration *)

(** The payment loop of [process_payroll]. *)
Fixpoint pay_loop (emps : list Employee) (gross_map net_map : gmap string Qc)
  : M unit :=
  match emps with
  | [] => mret ()
  | emp :: rest =>
      let name := name emp in
      gross ← getitem gross_map name;
      net ← getitem net_map name;
      _ ← log ("Paying " +:+ name +:+ ": gross " +:+ format_2f gross
                 +:+ " MAD → net " +:+ format_2f net +:+ " MAD");
      _ ← pay name net;
      pay_loop rest gross_map net_map
  end.

Definition process_payroll (tax_calculator : option TaxCalculator.t)
  : M (gmap string Qc) :=
  _ ← log "Running payroll...";
  gross_map ← run_payroll;
  let net_map :=
    match tax_calculator with
    | Some tax => TaxCalculator.compute_net_map tax gross_map
    | None => gross_map
    end in
  emps ← get_employees;
  _ ← pay_loop emps gross_map net_map;
  _ ← log "Payroll complete.";
  mret net_map.

(** The error kinds of the specification, as the exceptions the code
    raises for them. *)
Definition MissingInput (employee_name : string) : exn :=
  ValueError ("Missing hours for hourly employee " +:+ employee_name +:+ ".").

(** The payment-processor invocations among a sequence of calls. *)
Definition payments (cs : list call) : list (string * Qc) :=
  omap (λ c, match c with
             | ProcessorPay n a => Some (n, a)
             | LoggerLog _ => None
             end) cs.

(** ** Notions used to state the properties *)

(** [n] successive calls of [log_day]. *)
Definition log_days (n : nat) (self : Contractor.t) : Contractor.t :=
  Nat.iter n Contractor.log_day self.

(** What one iteration of the runner computes for [emp]: the pay, or the
    exception that ends the run. *)
Definition gross_pay (hours_map : gmap string Qc) (emp : Employee)
  : result Qc :=
  match emp with
  | Hourly _ =>
      match hours_map !! name emp with
      | None => Raise (MissingInput (name emp))
      | Some hours => calculate_pay emp (Some hours)
      end
  | _ => calculate_pay emp None
  end.

(** The outcome of the runner's loop as a function of its inputs. *)
Fixpoint gross_map_of (hours_map : gmap string Qc) (emps : list Employee)
    (results : gmap string Qc) : result (gmap string Qc) :=
  match emps with
  | [] => Ok results
  | emp :: rest =>
      match gross_pay hours_map emp with
      | Ok pay =>
          gross_map_of hours_map rest (<[name emp := round pay 2]> results)
      | Raise e => Raise e
      end
  end.

(** The mapping [process_payroll] returns for a given gross mapping. *)
Definition net_map_of (tax_calculator : option TaxCalculator.t)
    (gross_map : gmap string Qc) : gmap string Qc :=
  match tax_calculator with
  | Some tax => TaxCalculator.compute_net_map tax gross_map
  | None => gross_map
  end.

(** The world after the opening log call. *)
Definition started (w : World) : World :=
  MkWorld (employees w) (period_hours_map w)
          (calls w ++ [LoggerLog "Running payroll..."]).

(** ** The module's demonstration run

    The objects are built through the validated operations, as the script
    at the end of the module does, and one payroll cycle is run with the
    tax calculator configured. *)

Definition demo_world : result World :=
  match SalariedEmployee.__init__ "Amina" "Finance" (PyNumber (int 12000)),
        HourlyEmployee.__init__ "Yassine" "IT" (int 80),
        Contractor.__init__ "Laila" "Marketing" (int 900) with
  | Ok se, Ok he, Ok co =>
      match SalariedEmployee.apply_raise se (PyNumber (int 5)),
            HourlyEmployee.set_overtime_multiplier he (PyNumber (int 2)) with
      | Ok se, Ok he =>
          Ok (MkWorld [Salaried se; Hourly he; Contract (log_days 3 co)]
                      {[ "Yassine" := int 172 ]} [])
      | Raise e, _ | _, Raise e => Raise e
      end
  | Raise e, _, _ | _, Raise e, _ | _, _, Raise e => Raise e
  end.

Definition demo_run : option (gmap string string * list string) :=
  match demo_world with
  | Ok w =>
      match process_payroll (Some TaxCalculator.Build) w with
      | (Ok net_map, w') =>
          Some (format_2f <$> net_map,
                (λ c, match c with
                      | LoggerLog message => message
                      | ProcessorPay n amount => n +:+ " " +:+ format_2f amount
                      end) <$> calls w')
      | _ => None
      end
  | Raise _ => None
  end.

(** ** State invariants and amounts in hundredths *)

(** The invariants the constructors establish and the mutators keep. *)
Definition valid (emp : Employee) : Prop :=
  match emp with
  | Salaried e => 0 ≤ SalariedEmployee.monthly_salary e
  | Hourly e =>
      0 ≤ HourlyEmployee.hourly_rate e ∧
      1 ≤ HourlyEmployee.__overtime_multiplier e
  | Contract e =>
      0 ≤ Contractor.daily_rate e ∧ (0 ≤ Contractor.__days_worked e)%Z
  end.


(** * Properties *)

(** ** Arithmetic on the literals *)








(** ** Employee variants *)





(** C5. For every non-negative monthly salary, a salaried employee's pay
    is exactly the current monthly salary, whatever period-hours argument
    is supplied, [None] included; this holds for the method and for its
    dispatch through [Employee]. *)
Theorem salaried_calculate_pay_is_salary
    (self : SalariedEmployee.t) (period_hours : option Qc) :
  0 ≤ SalariedEmployee.monthly_salary self →
  SalariedEmployee.calculate_pay self period_hours
    = SalariedEmployee.monthly_salary self ∧
  calculate_pay (Salaried self) period_hours
    = Ok (SalariedEmployee.monthly_salary self).
Proof. done. Qed.

Lemma salaried_calculate_pay_is_salary_witness :
  SalariedEmployee.calculate_pay
    (SalariedEmployee.Build "Amina" "Finance" (int 12000)) (Some (int 40))
  = int 12000.
Proof.
  refine (proj1 (salaried_calculate_pay_is_salary
                   (SalariedEmployee.Build "Amina" "Finance" (int 12000))
                   (Some (int 40)) _)).
  by vm_compute.
Defined.

(** A salaried employee constructed with a non-negative salary holds it. *)
Lemma salaried_init_ok (n d : string) (salary : Qc) :
  0 ≤ salary →
  SalariedEmployee.__init__ n d (PyNumber salary)
  = Ok (SalariedEmployee.Build n d salary).
Proof.
  intros Hnn. unfold SalariedEmployee.__init__; simpl.
  case_decide; [by apply Qcle_ngt in Hnn | done].
Qed.







(** ** Tax calculation *)

(** C2. [TaxCalculator.net] returns the amount up to 3000, 90% of it
    above 3000 and up to 10000, and 80% of it above 10000; the boundary
    amounts take the lower-tax branch: [net 3000 = 3000] and
    [net 10000 = 9000]. *)
Theorem tax_net_brackets (amount : Qc) :
  (amount ≤ int 3000 → TaxCalculator.net amount = amount) ∧
  (int 3000 < amount ≤ int 10000 →
     TaxCalculator.net amount = amount * frac 90 100) ∧
  (int 10000 < amount → TaxCalculator.net amount = amount * frac 80 100) ∧
  TaxCalculator.net (int 3000) = int 3000 ∧
  TaxCalculator.net (int 10000) = int 9000.
Proof.
  unfold TaxCalculator.net. split_and!.
  - intros H. by case_decide.
  - intros [Hlo Hhi]. case_decide as H1; [by apply Qcle_ngt in H1|].
    by case_decide.
  - intros Hhi.
    case_decide as H1.
    { apply Qcle_ngt in H1. destruct H1.
      by apply Qclt_trans with (int 10000). }
    case_decide as H2; [by apply Qcle_ngt in H2 | done].
  - by vm_compute.
  - apply Qc_is_canon. by vm_compute.
Qed.

Lemma tax_net_brackets_witness :
  TaxCalculator.net (int 2700) = int 2700 ∧
  TaxCalculator.net (int 5000) = int 5000 * frac 90 100 ∧
  TaxCalculator.net (int 12600) = int 12600 * frac 80 100.
Proof.
  split_and!.
  - apply (proj1 (tax_net_brackets (int 2700))). by vm_compute.
  - apply (proj1 (proj2 (tax_net_brackets (int 5000)))). by vm_compute.
  - apply (proj1 (proj2 (proj2 (tax_net_brackets (int 12600))))).
    by vm_compute.
Defined.

(** ** The monad *)

Lemma bind_ok {A B} (m : M A) (f : A → M B) (w w' : World) (a : A) :
  m w = (Ok a, w') → (m ≫= f) w = f a w'.
Proof. intros H. unfold mbind, M_bind. by rewrite H. Qed.

Lemma bind_raise {A B} (m : M A) (f : A → M B) (w w' : World) (e : exn) :
  m w = (Raise e, w') → (m ≫= f) w = (Raise e, w').
Proof. intros H. unfold mbind, M_bind. by rewrite H. Qed.

Lemma payments_app (cs1 cs2 : list call) :
  payments (cs1 ++ cs2) = payments cs1 ++ payments cs2.
Proof. apply omap_app. Qed.

(** ** Payroll runner *)

Lemma run_payroll_loop_eq emps results w :
  run_payroll_loop emps results w
  = (gross_map_of (period_hours_map w) emps results, w).
Proof.
  revert results. induction emps as [|emp rest IH]; intros results; [done|].
  cbn [run_payroll_loop gross_map_of].
  destruct (gross_pay (period_hours_map w) emp) as [p|e] eqn:Hpay.
  - erewrite bind_ok; [apply IH|].
    destruct emp as [s|h|c]; simpl in *; try by inversion Hpay.
    erewrite bind_ok by done.
    destruct (period_hours_map w !! HourlyEmployee.name h); [|done].
    unfold lift. by rewrite Hpay.
  - erewrite bind_raise; [done|].
    destruct emp as [s|h|c]; simpl in *; try done.
    erewrite bind_ok by done.
    destruct (period_hours_map w !! HourlyEmployee.name h);
      [|by inversion Hpay].
    unfold lift. by rewrite Hpay.
Qed.

Lemma run_payroll_eq w :
  run_payroll w = (gross_map_of (period_hours_map w) (employees w) ∅, w).
Proof.
  unfold run_payroll. erewrite bind_ok by done. apply run_payroll_loop_eq.
Qed.

(** Every employee's pay computes: the loop returns. *)
Lemma gross_map_of_ok hours_map emps results :
  Forall (λ emp, ∃ p, gross_pay hours_map emp = Ok p) emps →
  ∃ m, gross_map_of hours_map emps results = Ok m.
Proof.
  intros Hall. revert results.
  induction Hall as [|emp rest [p Hp] _ IH]; intros results; simpl; [eauto|].
  rewrite Hp. apply IH.
Qed.





(** Entries are only added or overwritten, and the last writer of a name
    is the last employee of that name. *)
Lemma gross_map_of_lookup hours_map emps results m n :
  gross_map_of hours_map emps results = Ok m →
  (∀ emp, emp ∈ emps → name emp ≠ n) →
  m !! n = results !! n.
Proof.
  revert results. induction emps as [|emp rest IH]; intros results; simpl.
  - by intros [= ->].
  - destruct (gross_pay hours_map emp) as [p|e]; [|done].
    intros Hm Hnames. rewrite (IH _ Hm).
    + apply lookup_insert_ne. apply Hnames. by left.
    + intros emp' Hin. apply Hnames. by right.
Qed.

Lemma gross_map_of_last hours_map pre emp post results m :
  gross_map_of hours_map (pre ++ emp :: post) results = Ok m →
  (∀ emp', emp' ∈ post → name emp' ≠ name emp) →
  ∃ pay, gross_pay hours_map emp = Ok pay ∧
         m !! name emp = Some (round pay 2).
Proof.
  revert results. induction pre as [|emp0 pre IH]; intros results; simpl.
  - destruct (gross_pay hours_map emp) as [p|e]; [|done].
    intros Hm Hpost. exists p. split; [done|].
    rewrite (gross_map_of_lookup _ _ _ _ _ Hm Hpost).
    apply lookup_insert_eq.
  - destruct (gross_pay hours_map emp0) as [p|e]; [|done]. apply IH.
Qed.

Lemma gross_map_of_keys hours_map emps results m n :
  gross_map_of hours_map emps results = Ok m →
  is_Some (results !! n) ∨ (∃ emp, emp ∈ emps ∧ name emp = n) →
  is_Some (m !! n).
Proof.
  revert results. induction emps as [|emp rest IH]; intros results; simpl.
  - intros [= ->] [?|(emp & Hin & _)]; [done | by inversion Hin].
  - destruct (gross_pay hours_map emp) as [p|e]; [|done].
    intros Hm Hn. apply (IH _ Hm).
    destruct (decide (name emp = n)) as [<-|Hne].
    + left. rewrite lookup_insert_eq. eauto.
    + destruct Hn as [Hn|(emp' & Hin & Hname)].
      * left. by rewrite lookup_insert_ne.
      * right. exists emp'. split; [|done].
        inversion Hin; subst; [done | done].
Qed.

(** ** Orchestration *)

Lemma emit_eq c w :
  emit c w
  = (Ok (), MkWorld (employees w) (period_hours_map w) (calls w ++ [c])).
Proof. done. Qed.

(** With every name present in both mappings the payment loop completes
    and touches nothing but the collaborators' call record. *)
Lemma pay_loop_ok emps gross_map net_map w :
  (∀ emp, emp ∈ emps →
     is_Some (gross_map !! name emp) ∧ is_Some (net_map !! name emp)) →
  ∃ cs, pay_loop emps gross_map net_map w
        = (Ok (), MkWorld (employees w) (period_hours_map w) (calls w ++ cs)).
Proof.
  revert w. induction emps as [|emp rest IH]; intros w Hkeys.
  - exists []. rewrite app_nil_r. by destruct w.
  - destruct (Hkeys emp) as [[g Hg] [n Hn]]; [by left|].
    cbn [pay_loop]. unfold getitem. rewrite Hg, Hn.
    erewrite bind_ok by done. erewrite bind_ok by done.
    unfold log, pay.
    erewrite bind_ok by apply emit_eq. erewrite bind_ok by apply emit_eq.
    edestruct IH as [cs ->].
    { intros emp' Hin. apply Hkeys. by right. }
    cbn [employees period_hours_map calls].
    eexists. by rewrite <-!app_assoc.
Qed.

Lemma process_payroll_raise tax w e :
  gross_map_of (period_hours_map w) (employees w) ∅ = Raise e →
  process_payroll tax w = (Raise e, started w).
Proof.
  intros Hfail. unfold process_payroll, log.
  erewrite bind_ok by apply emit_eq.
  erewrite bind_raise; [done|].
  rewrite run_payroll_eq. cbn [employees period_hours_map]. by rewrite Hfail.
Qed.

Lemma process_payroll_ok tax w gross_map :
  gross_map_of (period_hours_map w) (employees w) ∅ = Ok gross_map →
  ∃ cs, process_payroll tax w
        = (Ok (net_map_of tax gross_map),
           MkWorld (employees w) (period_hours_map w) (calls w ++ cs)).
Proof.
  intros Hg. unfold process_payroll, log.
  erewrite bind_ok by apply emit_eq.
  erewrite bind_ok;
    [|rewrite run_payroll_eq; cbn [employees period_hours_map];
      by rewrite Hg].
  fold (net_map_of tax gross_map).
  erewrite bind_ok by done. cbn [employees].
  edestruct (pay_loop_ok (employees w) gross_map (net_map_of tax gross_map))
    as [cs Hloop]; [|erewrite bind_ok by apply Hloop].
  { intros emp Hin.
    assert (is_Some (gross_map !! name emp)) as Hsome
      by (eapply gross_map_of_keys; eauto).
    split; [done|]. destruct tax as [tax|]; [|done].
    unfold net_map_of, TaxCalculator.compute_net_map.
    rewrite lookup_fmap. by apply fmap_is_Some. }
  erewrite bind_ok by apply emit_eq.
  cbn [employees period_hours_map calls].
  eexists. unfold mret, M_ret. by rewrite <-!app_assoc.
Qed.

(** ** Claims about the runner and the orchestrator *)




(** C8. Given the gross mapping the runner produces, [process_payroll]
    without a tax calculator returns exactly that mapping, and with one it
    returns [compute_net_map] of it. *)
Theorem process_payroll_returns_net_map
    (w : World) (gross_map : gmap string Qc) :
  fst (run_payroll w) = Ok gross_map →
  fst (process_payroll None w) = Ok gross_map ∧
  ∀ tax, fst (process_payroll (Some tax) w)
         = Ok (TaxCalculator.compute_net_map tax gross_map).
Proof.
  rewrite run_payroll_eq. simpl. intros Hg. split; [|intros tax].
  - by destruct (process_payroll_ok None w _ Hg) as [cs ->].
  - by destruct (process_payroll_ok (Some tax) w _ Hg) as [cs ->].
Qed.

Lemma process_payroll_returns_net_map_witness :
  fst (process_payroll None
         (MkWorld [Contract (Contractor.Build "Laila" "Marketing" (int 900) 3)]
                  ∅ []))
  = Ok {[ "Laila" := round (int 900 * int 3) 2 ]}.
Proof.
  refine (proj1 (process_payroll_returns_net_map
    (MkWorld [Contract (Contractor.Build "Laila" "Marketing" (int 900) 3)] ∅ [])
    {[ "Laila" := round (int 900 * int 3) 2 ]} _)).
  reflexivity.
Defined.

(** C9. When two employees of the list share a name and no employee
    after the later one has that name, the runner (given that every
    employee's own pay computes) returns a mapping whose entry for the name
    is the rounded gross pay of the later one: the earlier entry is
    overwritten and no error is raised for the duplicate. *)
Theorem run_payroll_later_entry_overwrites
    (w : World) (before between after : list Employee)
    (earlier later : Employee) :
  employees w = before ++ earlier :: between ++ later :: after →
  name earlier = name later →
  (∀ emp, emp ∈ after → name emp ≠ name later) →
  Forall (λ emp, ∃ p, gross_pay (period_hours_map w) emp = Ok p)
         (employees w) →
  ∃ results pay,
    run_payroll w = (Ok results, w) ∧
    gross_pay (period_hours_map w) later = Ok pay ∧
    results !! name earlier = Some (round pay 2).
Proof.
  intros Hemps Hname Hafter Hall.
  destruct (gross_map_of_ok _ _ ∅ Hall) as [m Hm].
  rewrite run_payroll_eq, Hm. exists m.
  rewrite Hemps in Hm.
  replace (before ++ earlier :: between ++ later :: after)
    with ((before ++ earlier :: between) ++ later :: after) in Hm
    by by rewrite <-app_assoc.
  destruct (gross_map_of_last _ _ _ _ _ _ Hm Hafter) as (pay & Hpay & Hlook).
  exists pay. by rewrite Hname.
Qed.

Lemma run_payroll_later_entry_overwrites_witness :
  ∃ results pay,
    run_payroll
      (MkWorld [Salaried (SalariedEmployee.Build "Amina" "Finance" (int 12000));
                Contract (Contractor.Build "Amina" "Marketing" (int 900) 3)]
               ∅ [])
    = (Ok results,
       MkWorld [Salaried (SalariedEmployee.Build "Amina" "Finance" (int 12000));
                Contract (Contractor.Build "Amina" "Marketing" (int 900) 3)]
               ∅ []) ∧
    gross_pay ∅ (Contract (Contractor.Build "Amina" "Marketing" (int 900) 3))
    = Ok pay ∧
    results !! "Amina" = Some (round pay 2).
Proof.
  apply (run_payroll_later_entry_overwrites
    (MkWorld [Salaried (SalariedEmployee.Build "Amina" "Finance" (int 12000));
              Contract (Contractor.Build "Amina" "Marketing" (int 900) 3)]
             ∅ [])
    [] [] []
    (Salaried (SalariedEmployee.Build "Amina" "Finance" (int 12000)))
    (Contract (Contractor.Build "Amina" "Marketing" (int 900) 3))).
  - reflexivity.
  - reflexivity.
  - intros emp Hin. inversion Hin.
  - repeat constructor; eexists; reflexivity.
Defined.

(** C10. [run_payroll] leaves the world as it found it, and
    [process_payroll] leaves every employee and the period-hours mapping
    as they were (it only adds logger and processor calls); so a second
    call after the first returns the same result. *)
Theorem payroll_run_leaves_inputs_unchanged
    (tax : option TaxCalculator.t) (w : World) :
  snd (run_payroll w) = w ∧
  employees (snd (process_payroll tax w)) = employees w ∧
  period_hours_map (snd (process_payroll tax w)) = period_hours_map w ∧
  fst (run_payroll (snd (run_payroll w))) = fst (run_payroll w) ∧
  fst (process_payroll tax (snd (process_payroll tax w)))
    = fst (process_payroll tax w).
Proof.
  rewrite !run_payroll_eq. cbn [fst snd].
  destruct (gross_map_of (period_hours_map w) (employees w) ∅)
    as [g|e] eqn:Hg.
  - destruct (process_payroll_ok tax w g Hg) as [cs Hrun].
    rewrite Hrun. cbn [fst snd employees period_hours_map].
    split_and!; try done.
    edestruct (process_payroll_ok tax
      (MkWorld (employees w) (period_hours_map w) (calls w ++ cs)) g)
      as [cs' ->]; done.
  - rewrite (process_payroll_raise tax w e Hg).
    cbn [fst snd started employees period_hours_map].
    split_and!; try done.
    by rewrite (process_payroll_raise tax (started w) e Hg).
Qed.

(** ** The demonstration run *)

Example demo_run_result :
  demo_run
  = Some ({[ "Amina" := "10080.00"; "Yassine" := "11776.00";
             "Laila" := "2700.00" ]},
          [ "Running payroll...";
            "Paying Amina: gross 12600.00 MAD → net 10080.00 MAD";
            "Amina 10080.00";
            "Paying Yassine: gross 14720.00 MAD → net 11776.00 MAD";
            "Yassine 11776.00";
            "Paying Laila: gross 2700.00 MAD → net 2700.00 MAD";
            "Laila 2700.00";
            "Payroll complete." ]).
Proof. by vm_compute. Qed.

(** * Further properties of the module *)

(** ** Rational arithmetic *)

Lemma this_int (z : Z) : (this (int z) == inject_Z z)%Q.
Proof. reflexivity. Qed.

Lemma this_frac (n : Z) (d : positive) : (this (frac n d) == n # d)%Q.
Proof. unfold frac. simpl. apply Qred_correct. Qed.

Lemma Qinv_100 : (/ (100 # 1) == 1 # 100)%Q.
Proof. reflexivity. Qed.

(** Turns a goal and its hypotheses over [Qc] into ones over [Q], ready
    for [lra] and [nra]. *)
Ltac qc2q :=
  try apply Qc_is_canon;
  unfold Qcle, Qclt, Qcminus, Qcdiv in *;
  repeat (rewrite ?this_int, ?this_frac in *;
          cbn [this Qcplus Qcmult Qcopp Qcinv Q2Qc] in *;
          rewrite ?Qred_correct in *);
  unfold inject_Z in *; rewrite ?Qinv_100 in *.

Lemma Qc_nlt_le (x y : Qc) : ¬ x < y ↔ y ≤ x.
Proof. split; [apply Qcnot_lt_le | apply Qcle_not_lt]. Qed.

Lemma Qc_nle_lt (x y : Qc) : ¬ x ≤ y ↔ y < x.
Proof. split; [apply Qcnot_le_lt | apply Qclt_not_le]. Qed.

(** Case analysis on every comparison decided in the goal. *)
Ltac cases_decide :=
  repeat (let H := fresh "Hcmp" in
          case_decide as H;
          [|first [apply Qc_nlt_le in H | apply Qc_nle_lt in H | idtac]]).

(** ** Salaried employees *)







(** ** Hourly employees *)

Lemma py_min_cases (a b : Qc) :
  (a ≤ b ∧ py_min a b = a) ∨ (b < a ∧ py_min a b = b).
Proof. unfold py_min. cases_decide; auto. Qed.

Lemma py_max_cases (a b : Qc) :
  (b ≤ a ∧ py_max a b = a) ∨ (a < b ∧ py_max a b = b).
Proof. unfold py_max. cases_decide; auto. Qed.

(** The pay as a function of the hours, outside the validation. *)
Lemma hourly_calculate_pay_ok (self : HourlyEmployee.t) (h pay : Qc) :
  HourlyEmployee.calculate_pay self (Some h) = Ok pay →
  0 ≤ h ∧
  pay = py_min h (int 160) * HourlyEmployee.hourly_rate self
        + py_max (h - int 160) (int 0) * HourlyEmployee.hourly_rate self
          * HourlyEmployee.__overtime_multiplier self.
Proof.
  unfold HourlyEmployee.calculate_pay. cases_decide; [done|].
  by intros [= <-].
Qed.

(** Base and overtime hours are non-negative and add up to the hours. *)
Lemma hours_split (h : Qc) :
  0 ≤ h →
  0 ≤ py_min h (int 160) ∧ 0 ≤ py_max (h - int 160) (int 0) ∧
  py_min h (int 160) ≤ int 160 ∧
  py_min h (int 160) + py_max (h - int 160) (int 0) = h.
Proof.
  intros Hh.
  destruct (py_min_cases h (int 160)) as [[A ->]|[A ->]];
    destruct (py_max_cases (h - int 160) (int 0)) as [[B ->]|[B ->]];
    split_and!; qc2q; lra.
Qed.

Lemma hourly_pay_between (self : HourlyEmployee.t) (h pay : Qc) :
  0 ≤ HourlyEmployee.hourly_rate self →
  1 ≤ HourlyEmployee.__overtime_multiplier self →
  HourlyEmployee.calculate_pay self (Some h) = Ok pay →
  0 ≤ pay ∧
  h * HourlyEmployee.hourly_rate self ≤ pay ∧
  pay ≤ h * HourlyEmployee.hourly_rate self
        * HourlyEmployee.__overtime_multiplier self.
Proof.
  intros Hr Hm [Hh ->]%hourly_calculate_pay_ok.
  destruct (hours_split h Hh) as (Hb & Ho & _ & Hsum).
  set (r := HourlyEmployee.hourly_rate self) in *.
  set (m := HourlyEmployee.__overtime_multiplier self) in *.
  set (b := py_min h (int 160)) in *.
  set (o := py_max (h - int 160) (int 0)) in *.
  rewrite <-Hsum. clearbody b o r m. clear Hsum Hh.
  assert (0 ≤ b * r) as Hbr by (qc2q; nra).
  assert (0 ≤ o * r) as Hor by (qc2q; nra).
  replace (b * r + o * r * m) with (b * r + (o * r) * m) by ring.
  replace ((b + o) * r * m) with ((b * r) * m + (o * r) * m) by ring.
  replace ((b + o) * r) with (b * r + o * r) by ring.
  set (br := b * r) in *. set (or := o * r) in *. clearbody br or.
  split_and!; qc2q; nra.
Qed.



(** X5. With a non-negative rate and a non-negative multiplier, more
    hours never pay less. *)
Theorem hourly_pay_monotone (self : HourlyEmployee.t) (h1 h2 pay1 pay2 : Qc) :
  0 ≤ HourlyEmployee.hourly_rate self →
  0 ≤ HourlyEmployee.__overtime_multiplier self →
  h1 ≤ h2 →
  HourlyEmployee.calculate_pay self (Some h1) = Ok pay1 →
  HourlyEmployee.calculate_pay self (Some h2) = Ok pay2 →
  pay1 ≤ pay2.
Proof.
  intros Hr Hm Hle [Hh1 ->]%hourly_calculate_pay_ok
         [Hh2 ->]%hourly_calculate_pay_ok.
  set (r := HourlyEmployee.hourly_rate self) in *.
  set (m := HourlyEmployee.__overtime_multiplier self) in *.
  assert (py_min h1 (int 160) ≤ py_min h2 (int 160)) as Hb.
  { destruct (py_min_cases h1 (int 160)) as [[A1 ->]|[A1 ->]];
      destruct (py_min_cases h2 (int 160)) as [[A2 ->]|[A2 ->]];
      qc2q; lra. }
  assert (py_max (h1 - int 160) (int 0) ≤ py_max (h2 - int 160) (int 0))
    as Ho.
  { destruct (py_max_cases (h1 - int 160) (int 0)) as [[B1 ->]|[B1 ->]];
      destruct (py_max_cases (h2 - int 160) (int 0)) as [[B2 ->]|[B2 ->]];
      qc2q; lra. }
  apply Qcplus_le_compat.
  - by apply Qcmult_le_compat_r.
  - rewrite <-!Qcmult_assoc. apply Qcmult_le_compat_r; [done|].
    clear -Hr Hm. clearbody r m. qc2q. nra.
Qed.

Lemma hourly_pay_monotone_witness :
  int 150 * int 80 + int 0 * int 80 * int 2
  ≤ int 160 * int 80 + (int 172 - int 160) * int 80 * int 2.
Proof.
  apply (hourly_pay_monotone
           (HourlyEmployee.Build "Yassine" "IT" (int 80) (int 2))
           (int 150) (int 172)); [by vm_compute..|reflexivity|reflexivity].
Defined.



(** ** Contractors *)




Lemma int_nonneg (z : Z) : (0 ≤ z)%Z → 0 ≤ int z.
Proof. intros Hz. unfold Qcle, Qle. simpl. lia. Qed.


(** ** Constructors and state invariants *)



Lemma valid_calculate_pay_nonneg (emp : Employee) (ph : option Qc) (pay : Qc) :
  valid emp → calculate_pay emp ph = Ok pay → 0 ≤ pay.
Proof.
  destruct emp as [s|h|c]; simpl.
  - by intros Hs [= <-].
  - intros [Hr Hm]. destruct ph as [hours|]; [|done].
    intros Hpay. by destruct (hourly_pay_between h hours pay Hr Hm Hpay).
  - intros [Hr Hd] [= <-]. unfold Contractor.calculate_pay.
    apply int_nonneg in Hd. qc2q. nra.
Qed.

(** X9. An employee that satisfies the state invariants is never paid a
    negative amount, whatever the period hours. *)
Theorem valid_employee_pay_nonneg
    (emp : Employee) (period_hours : option Qc) (pay : Qc) :
  valid emp → calculate_pay emp period_hours = Ok pay → 0 ≤ pay.
Proof. apply valid_calculate_pay_nonneg. Qed.

Lemma valid_employee_pay_nonneg_witness :
  0 ≤ int 900 * int 3.
Proof.
  apply (valid_employee_pay_nonneg
           (Contract (Contractor.Build "Laila" "Marketing" (int 900) 3))
           None).
  - split; [by vm_compute | simpl; lia].
  - reflexivity.
Defined.

(** ** Rounding *)










(** ** Tax calculation *)

Lemma net_bounds (amount : Qc) :
  0 ≤ amount →
  0 ≤ TaxCalculator.net amount ∧
  amount * frac 80 100 ≤ TaxCalculator.net amount ∧
  TaxCalculator.net amount ≤ amount.
Proof.
  intros Hnn. unfold TaxCalculator.net.
  cases_decide; split_and!; qc2q; lra.
Qed.

(** X10. On a non-negative amount the tax is never negative and never
    more than 20%: the net amount lies between 80% of the amount and the
    amount itself. *)
Theorem tax_net_between (amount : Qc) :
  0 ≤ amount →
  0 ≤ TaxCalculator.net amount ∧
  amount * frac 80 100 ≤ TaxCalculator.net amount ∧
  TaxCalculator.net amount ≤ amount.
Proof. apply net_bounds. Qed.

Lemma tax_net_between_witness :
  0 ≤ TaxCalculator.net (int 5000) ∧
  int 5000 * frac 80 100 ≤ TaxCalculator.net (int 5000) ∧
  TaxCalculator.net (int 5000) ≤ int 5000.
Proof. apply (tax_net_between (int 5000)). by vm_compute. Defined.

(** X11. Within one bracket a larger amount never nets less. *)
Theorem tax_net_monotone_within_bracket (a b : Qc) :
  a ≤ b →
  b ≤ int 3000 ∨ (int 3000 < a ∧ b ≤ int 10000) ∨ int 10000 < a →
  TaxCalculator.net a ≤ TaxCalculator.net b.
Proof.
  intros Hab Hbr. unfold TaxCalculator.net.
  destruct Hbr as [H|[[H1 H2]|H]]; cases_decide; qc2q; lra.
Qed.

Lemma tax_net_monotone_within_bracket_witness :
  TaxCalculator.net (int 4000) ≤ TaxCalculator.net (int 5000).
Proof.
  apply (tax_net_monotone_within_bracket (int 4000) (int 5000)).
  - by vm_compute.
  - right. left. split; by vm_compute.
Defined.





(** ** Payroll runner, continued *)



Lemma gross_map_of_dom hours_map emps results m :
  gross_map_of hours_map emps results = Ok m →
  dom m = dom results ∪ list_to_set (name <$> emps).
Proof.
  revert results. induction emps as [|emp rest IH]; intros results; simpl.
  - intros [= ->]. by rewrite (right_id_L ∅ (∪)).
  - destruct (gross_pay hours_map emp) as [p|e]; [|done].
    intros Hm. rewrite (IH _ Hm), dom_insert_L.
    by rewrite (comm_L (∪) {[name emp]}), <-(assoc_L (∪)).
Qed.

Lemma gross_map_of_ext hours_map1 hours_map2 emps results :
  (∀ emp, emp ∈ emps → gross_pay hours_map1 emp = gross_pay hours_map2 emp) →
  gross_map_of hours_map1 emps results = gross_map_of hours_map2 emps results.
Proof.
  revert results. induction emps as [|emp rest IH]; intros results Hext; [done|].
  simpl. rewrite <-(Hext emp) by by left.
  destruct (gross_pay hours_map1 emp); [|done].
  apply IH. intros emp' Hin. apply Hext. by right.
Qed.




Lemma size_names_le (l : list string) :
  (size (list_to_set l : gset string) ≤ length l)%nat.
Proof.
  induction l as [|x l IH].
  - change (list_to_set [] : gset string) with (∅ : gset string).
    by rewrite size_empty.
  - change (list_to_set (x :: l) : gset string)
      with ({[x]} ∪ list_to_set l : gset string).
    cbn [length]. rewrite size_union_alt, size_singleton.
    pose proof (subseteq_size (list_to_set l ∖ {[x]} : gset string)
                  (list_to_set l)) as Hsub.
    assert ((list_to_set l ∖ {[x]} : gset string) ⊆ list_to_set l) as Hs
      by apply subseteq_difference_l, reflexivity.
    specialize (Hsub Hs). lia.
Qed.

(** X15. The mapping [run_payroll] returns has exactly the names of the
    employees as keys, so it is empty for an empty list and never has
    more entries than the list has employees. *)
Theorem run_payroll_keys (w : World) (results : gmap string Qc) :
  fst (run_payroll w) = Ok results →
  dom results = list_to_set (name <$> employees w) ∧
  (employees w = [] → results = ∅) ∧
  (size results ≤ length (employees w))%nat.
Proof.
  rewrite run_payroll_eq. simpl. intros Hm.
  pose proof (gross_map_of_dom _ _ _ _ Hm) as Hdom.
  rewrite dom_empty_L, (left_id_L ∅ (∪)) in Hdom.
  split_and!; [done| |].
  - intros Hnil. rewrite Hnil in Hm. by inversion Hm.
  - rewrite <-size_dom, Hdom.
    etrans; [apply size_names_le|]. by rewrite length_fmap.
Qed.

Lemma run_payroll_keys_witness :
  dom ({[ "Laila" := round (int 900 * int 3) 2 ]} : gmap string Qc)
  = list_to_set
      (name <$> [Contract (Contractor.Build "Laila" "Marketing" (int 900) 3)]).
Proof.
  apply (run_payroll_keys
    (MkWorld [Contract (Contractor.Build "Laila" "Marketing" (int 900) 3)]
             ∅ [])
    {[ "Laila" := round (int 900 * int 3) 2 ]}).
  reflexivity.
Defined.




(** X17. [run_payroll] reads the period-hours mapping at the names of the
    hourly employees only: two mappings that agree there give the same
    outcome. *)
Theorem run_payroll_reads_hourly_names_only
    (w : World) (hours_map : gmap string Qc) :
  (∀ h, Hourly h ∈ employees w →
        hours_map !! HourlyEmployee.name h
        = period_hours_map w !! HourlyEmployee.name h) →
  fst (run_payroll (MkWorld (employees w) hours_map (calls w)))
  = fst (run_payroll w).
Proof.
  intros Hagree. rewrite !run_payroll_eq. simpl.
  apply gross_map_of_ext. intros [s|h|c] Hin; simpl; [done| |done].
  by rewrite Hagree.
Qed.

Lemma run_payroll_reads_hourly_names_only_witness :
  fst (run_payroll
         (MkWorld [Salaried (SalariedEmployee.Build "Amina" "Finance" (int 12600))]
                  {[ "Amina" := int (-5) ]} []))
  = fst (run_payroll
           (MkWorld [Salaried (SalariedEmployee.Build "Amina" "Finance" (int 12600))]
                    ∅ [])).
Proof.
  apply (run_payroll_reads_hourly_names_only
    (MkWorld [Salaried (SalariedEmployee.Build "Amina" "Finance" (int 12600))]
             ∅ [])
    {[ "Amina" := int (-5) ]}).
  intros h Hin. apply list_elem_of_singleton in Hin. discriminate Hin.
Defined.



(** ** Orchestration, continued *)

(** The calls of the payment loop: two per employee, and among them one
    payment per employee, in list order, of the net amount held for the
    employee's name. *)
Lemma pay_loop_trace emps gross_map net_map w :
  (∀ emp, emp ∈ emps →
     is_Some (gross_map !! name emp) ∧ is_Some (net_map !! name emp)) →
  ∃ cs,
    pay_loop emps gross_map net_map w
    = (Ok (), MkWorld (employees w) (period_hours_map w) (calls w ++ cs)) ∧
    length cs = (2 * length emps)%nat ∧
    Forall2 (λ emp p, p.1 = name emp ∧ net_map !! name emp = Some p.2)
            emps (payments cs).
Proof.
  revert w. induction emps as [|emp rest IH]; intros w Hkeys.
  - exists []. rewrite app_nil_r. split_and!; [by destruct w|done|constructor].
  - destruct (Hkeys emp) as [[g Hg] [n Hn]]; [by left|].
    cbn [pay_loop]. unfold getitem. rewrite Hg, Hn.
    erewrite bind_ok by done. erewrite bind_ok by done.
    unfold log, pay.
    erewrite bind_ok by apply emit_eq. erewrite bind_ok by apply emit_eq.
    edestruct IH as (cs & -> & Hlen & Hpays).
    { intros emp' Hin. apply Hkeys. by right. }
    cbn [employees period_hours_map calls].
    eexists (_ :: _ :: cs). split_and!.
    + by rewrite <-!app_assoc.
    + simpl. lia.
    + simpl. constructor; [done|]. exact Hpays.
Qed.

Lemma process_payroll_trace tax w gross_map :
  gross_map_of (period_hours_map w) (employees w) ∅ = Ok gross_map →
  ∃ cs,
    process_payroll tax w
    = (Ok (net_map_of tax gross_map),
       MkWorld (employees w) (period_hours_map w)
         (calls w ++ [LoggerLog "Running payroll..."] ++ cs
                  ++ [LoggerLog "Payroll complete."])) ∧
    length cs = (2 * length (employees w))%nat ∧
    Forall2 (λ emp p, p.1 = name emp ∧
                      net_map_of tax gross_map !! name emp = Some p.2)
            (employees w) (payments cs).
Proof.
  intros Hg. unfold process_payroll, log.
  erewrite bind_ok by apply emit_eq.
  erewrite bind_ok;
    [|rewrite run_payroll_eq; cbn [employees period_hours_map];
      by rewrite Hg].
  fold (net_map_of tax gross_map).
  erewrite bind_ok by done. cbn [employees].
  edestruct (pay_loop_trace (employees w) gross_map (net_map_of tax gross_map))
    as (cs & Hloop & Hlen & Hpays); [|erewrite bind_ok by apply Hloop].
  { intros emp Hin.
    assert (is_Some (gross_map !! name emp)) as Hsome
      by (eapply gross_map_of_keys; eauto).
    split; [done|]. destruct tax as [tax|]; [|done].
    unfold net_map_of, TaxCalculator.compute_net_map.
    rewrite lookup_fmap. by apply fmap_is_Some. }
  erewrite bind_ok by apply emit_eq.
  cbn [employees period_hours_map calls].
  exists cs. split_and!; [|done..].
  unfold mret, M_ret. by rewrite <-!app_assoc.
Qed.



(** X20. A run of [process_payroll] that returns has made, between the
    opening and the closing log call, exactly two calls per employee of the
    list, among them one payment per employee, in list order, each to the
    employee's name and of the amount the returned mapping holds for that
    name; employees sharing a name are thus each paid the same amount. *)
Theorem process_payroll_pays_each_entry
    (tax : option TaxCalculator.t) (w w' : World)
    (net_map : gmap string Qc) :
  process_payroll tax w = (Ok net_map, w') →
  ∃ cs,
    calls w' = calls w ++ [LoggerLog "Running payroll..."] ++ cs
                       ++ [LoggerLog "Payroll complete."] ∧
    length cs = (2 * length (employees w))%nat ∧
    payments (calls w') = payments (calls w) ++ payments cs ∧
    Forall2 (λ emp p, p.1 = name emp ∧ net_map !! name emp = Some p.2)
            (employees w) (payments cs).
Proof.
  intros Hrun.
  destruct (gross_map_of (period_hours_map w) (employees w) ∅)
    as [g|e] eqn:Hg.
  2: { rewrite (process_payroll_raise tax w e Hg) in Hrun. done. }
  destruct (process_payroll_trace tax w g Hg) as (cs & Hok & Hlen & Hpays).
  rewrite Hok in Hrun. injection Hrun as <- <-.
  exists cs. cbn [calls]. split_and!; [done..| |done].
  rewrite payments_app. simpl. rewrite payments_app. simpl.
  by rewrite app_nil_r.
Qed.

Lemma process_payroll_pays_each_entry_witness :
  ∃ cs,
    [LoggerLog "Running payroll...";
     LoggerLog "Paying Laila: gross 2700.00 MAD → net 2700.00 MAD";
     ProcessorPay "Laila" (round (int 900 * int 3) 2);
     LoggerLog "Payroll complete."]
    = [] ++ [LoggerLog "Running payroll..."] ++ cs
         ++ [LoggerLog "Payroll complete."] ∧
    length cs = (2 * 1)%nat ∧
    payments
      [LoggerLog "Running payroll...";
       LoggerLog "Paying Laila: gross 2700.00 MAD → net 2700.00 MAD";
       ProcessorPay "Laila" (round (int 900 * int 3) 2);
       LoggerLog "Payroll complete."]
    = payments [] ++ payments cs ∧
    Forall2 (λ emp p, p.1 = name emp ∧
               ({[ "Laila" := round (int 900 * int 3) 2 ]} : gmap string Qc)
                 !! name emp = Some p.2)
            [Contract (Contractor.Build "Laila" "Marketing" (int 900) 3)]
            (payments cs).
Proof.
  refine (process_payroll_pays_each_entry None
    (MkWorld [Contract (Contractor.Build "Laila" "Marketing" (int 900) 3)]
             ∅ [])
    (MkWorld [Contract (Contractor.Build "Laila" "Marketing" (int 900) 3)]
             ∅
             [LoggerLog "Running payroll...";
              LoggerLog "Paying Laila: gross 2700.00 MAD → net 2700.00 MAD";
              ProcessorPay "Laila" (round (int 900 * int 3) 2);
              LoggerLog "Payroll complete."])
    {[ "Laila" := round (int 900 * int 3) 2 ]} _).
  by vm_compute.
Defined.
